(** * Conductor API: the user directory service of [migrations/crud.py]

    A shallow embedding of the FastAPI application: the [users] table and
    the SQLAlchemy session it is reached through, the five route handlers,
    the request schema [UserIn] and the [api_key_guard] middleware,
    followed by the properties of the service.

    The relational store, the e-mail validator behind [EmailStr] and the
    process environment are not part of the repository.  The store is
    modelled as a table keyed by [id] with an id generator; what the
    schema refuses to store, what the e-mail validator accepts and
    returns, and the value of [API_KEY] are parameters of the
    development. *)

From Stdlib Require Import ZArith Lia Ascii.
From stdpp Require Import base option list sorting fin_maps gmap strings.

Local Open Scope Z_scope.
Local Open Scope string_scope.
Local Set Warnings "-register-all".

(** ** JSON values, as the framework hands them over after parsing.
    The items of [JObj] are those of the parsed [dict]: a key is looked
    up at its first binding. *)

Inductive json : Type :=
| JNull
| JBool (b : bool)
| JNum (n : Z)
| JStr (s : string)
| JArr (items : list json)
| JObj (items : list (string * json)).

Fixpoint dict_get (k : string) (items : list (string * json)) : option json :=
  match items with
  | [] => None
  | (k', v) :: rest => if String.eqb k k' then Some v else dict_get k rest
  end.

(** ** Schemas *)

(** [class UserIn(BaseModel)]: name: str, email: EmailStr. *)
Module UserIn.
Record t : Type := Build { name : string; email : string }.
End UserIn.

(** [class UserOut(UserIn)]: the fields of [UserIn] and id: int.  It is
    also the shape of a row mapping read from the [users] table. *)
Module UserOut.
Record t : Type := Build { id : Z; name : string; email : string }.

Definition to_json (u : t) : json :=
  JObj [("id", JNum (id u)); ("name", JStr (name u)); ("email", JStr (email u))].
End UserOut.

(** ** The [users] table

    [rows] maps the primary key [id] to the columns [(name, email)];
    [next_id] is the value the store assigns to the next inserted row. *)

Record Table : Type := { rows : gmap Z (string * string); next_id : Z }.

Definition row_of (kv : Z * (string * string)) : UserOut.t :=
  UserOut.Build kv.1 kv.2.1 kv.2.2.

Definition id_le (u v : UserOut.t) : Prop := UserOut.id u <= UserOut.id v.

#[global] Instance id_le_dec (u v : UserOut.t) : Decision (id_le u v).
Proof. unfold id_le. apply _. Defined.

Definition id_lt (u v : UserOut.t) : Prop := UserOut.id u < UserOut.id v.

(** The five statements the handlers send. *)
Inductive Stmt : Type :=
| SELECT_all_ORDER_BY_id
| INSERT_RETURNING (n e : string)
| SELECT_WHERE_id (i : Z)
| UPDATE_RETURNING (i : Z) (n e : string)
| DELETE_WHERE_id (i : Z).

Definition is_write (q : Stmt) : bool :=
  match q with
  | SELECT_all_ORDER_BY_id | SELECT_WHERE_id _ => false
  | INSERT_RETURNING _ _ | UPDATE_RETURNING _ _ _ | DELETE_WHERE_id _ => true
  end.

(** What [execute] hands back: the rows of the result set and [rowcount]. *)
Record CursorResult : Type := { fetched : list UserOut.t; rowcount : Z }.

(** Text of the store's error for an INSERT whose generated id is taken. *)
Definition duplicate_key : string :=
  "duplicate key value violates unique constraint".

(** ** Exceptions and the session monad *)

Inductive Exc : Type :=
| HTTPException (status_code : Z) (detail : string)
| DBAPIError (cause : string)
| NoResultFound
| MultipleResultsFound
| NameError (name : string).

(** [str(e)], as the f-string of [create_user] formats the exception;
    what can reach it there comes from the store or from [one]. *)
Definition str (e : Exc) : string :=
  match e with
  | HTTPException _ d => d
  | DBAPIError cause => cause
  | NoResultFound => "No row was found when one was required"
  | MultipleResultsFound => "Multiple rows were found when exactly one was required"
  | NameError n => "name '" +:+ n +:+ "' is not defined"
  end.

Inductive Outcome (A : Type) : Type :=
| Return (a : A)
| Raise (e : Exc).
Arguments Return {A} a.
Arguments Raise {A} e.

Inductive Event : Type :=
| Executed (q : Stmt)
| Committed
| RolledBack.

(** A session opened by [SessionLocal()]: [store] is the committed table,
    [txn] the table as the open transaction sees it, [trace] what the
    session has been asked to do so far. *)
Record Session : Type := { store : Table; txn : Table; trace : list Event }.

Definition Sess (A : Type) : Type := Session -> Outcome A * Session.

Definition ret {A} (a : A) : Sess A := fun s => (Return a, s).

Definition raise {A} (e : Exc) : Sess A := fun s => (Raise e, s).

Definition bind {A B} (c : Sess A) (k : A -> Sess B) : Sess B :=
  fun s =>
    match c s with
    | (Return a, s') => k a s'
    | (Raise e, s') => (Raise e, s')
    end.

(** [try: body except Exception as e: handler(e)] *)
Definition try_except {A} (body : Sess A) (handler : Exc -> Sess A) : Sess A :=
  fun s =>
    match body s with
    | (Return a, s') => (Return a, s')
    | (Raise e, s') => handler e s'
    end.

Declare Scope sess_scope.
Delimit Scope sess_scope with sess.
Notation "x <- c1 ;; c2" := (bind c1 (fun x => c2))
  (at level 100, c1 at next level, right associativity) : sess_scope.
Notation "c1 ;; c2" := (bind c1 (fun _ => c2))
  (at level 100, right associativity) : sess_scope.

Definition commit : Sess unit :=
  fun s => (Return tt, {| store := txn s; txn := txn s; trace := trace s ++ [Committed] |}).

Definition rollback : Sess unit :=
  fun s => (Return tt, {| store := store s; txn := store s; trace := trace s ++ [RolledBack] |}).

Definition SessionLocal (db : Table) : Session :=
  {| store := db; txn := db; trace := [] |}.

(** [with SessionLocal() as s: body]: leaving the block closes the
    session, which drops whatever the transaction has not committed. *)
Definition with_session {A} (body : Sess A) (db : Table) : Outcome A * Table :=
  let '(o, s) := body (SessionLocal db) in (o, store s).

(** Result-set accessors of [.mappings()]. *)
Definition all (r : CursorResult) : list UserOut.t := fetched r.

Definition first (r : CursorResult) : option UserOut.t := head (fetched r).

Definition one (r : CursorResult) : Sess UserOut.t :=
  match fetched r with
  | [] => raise NoResultFound
  | [u] => ret u
  | _ :: _ :: _ => raise MultipleResultsFound
  end.

(** ** Responses *)

Inductive Body : Type :=
| NoBody
| Json (j : json)
| Text (s : string).

Record Response : Type := { status_code : Z; content : Body }.

Definition JSONResponse (j : json) (status : Z) : Response :=
  {| status_code := status; content := Json j |}.

(** What the framework makes of a handler's outcome: the returned value
    is serialised under the route's status code, an [HTTPException]
    becomes its status with [{"detail": ...}], anything else that escapes
    is the server's plain 500.  Serialising validates the returned value
    against the route's [response_model]; a value that fails it is the
    plain 500 too. *)
Definition respond {A} (status : Z) (ser : A -> option Body) (o : Outcome A) : Response :=
  match o with
  | Return a =>
      match ser a with
      | Some b => {| status_code := status; content := b |}
      | None => {| status_code := 500; content := Text "Internal Server Error" |}
      end
  | Raise (HTTPException code d) => JSONResponse (JObj [("detail", JStr d)]) code
  | Raise _ => {| status_code := 500; content := Text "Internal Server Error" |}
  end.

(** ** Request validation *)

Inductive ErrorKind : Type :=
| json_invalid
| model_attributes_type
| missing
| string_type
| value_error.

Record ErrorDetail : Type := { kind : ErrorKind; loc : list string }.

Definition error_json (d : ErrorDetail) : json :=
  JObj [("type", JStr match kind d with
                      | json_invalid => "json_invalid"
                      | model_attributes_type => "model_attributes_type"
                      | missing => "missing"
                      | string_type => "string_type"
                      | value_error => "value_error"
                      end);
        ("loc", JArr (JStr <$> loc d))].

(** The structured validation-error response. *)
Definition validation_error (errs : list ErrorDetail) : Response :=
  JSONResponse (JObj [("detail", JArr (error_json <$> errs))]) 422.

(** ** The module's global names

    Every name the module binds by an import, an assignment, a [def] or a
    [class], in source order. *)
Definition module_globals : list string :=
  [ "os"; "FastAPI"; "HTTPException"; "Request"; "CORSMiddleware";
    "BaseModel"; "EmailStr"; "create_engine"; "text"; "sessionmaker";
    "load_dotenv"; "DATABASE_URL"; "ALLOWED"; "API_KEY"; "engine";
    "SessionLocal"; "app"; "api_key_guard"; "UserIn"; "UserOut"; "health";
    "list_users"; "create_user"; "get_user"; "update_user"; "delete_user" ].

(** Evaluating, at run time, a name that is not a builtin. *)
Definition load_global (name : string) : Outcome unit :=
  if bool_decide (name ∈ module_globals) then Return tt else Raise (NameError name).

(** ** Requests

    The body of a request as the framework reads it: bytes that do not
    decode as text, or text that is parsed as JSON ([None]: the text is
    not JSON). *)
Inductive Payload : Type :=
| Undecodable
| Decoded (body : option json).

(** The route a request is matched to, with its path parameter and its
    body. *)
Inductive Operation : Type :=
| Health
| ListUsers
| CreateUser (payload : Payload)
| GetUser (user_id : Z)
| UpdateUser (user_id : Z) (payload : Payload)
| DeleteUser (user_id : Z).

(** The framework's answer to a body it cannot read. *)
Definition body_parse_error : Response :=
  JSONResponse (JObj [("detail", JStr "There was an error parsing the body")]) 400.

(** Header names arrive lower-cased from the server. *)
Record Request : Type := { headers : list (string * string); target : Operation }.

Fixpoint headers_get (k : string) (hs : list (string * string)) : option string :=
  match hs with
  | [] => None
  | (k', v) :: rest => if String.eqb k k' then Some v else headers_get k rest
  end.

(** Truth value of [os.getenv("API_KEY")]: unset and empty are false. *)
Definition truthy (v : option string) : bool :=
  match v with
  | None => false
  | Some s => negb (String.eqb s EmptyString)
  end.

(** [a != b] between an optional header value and the optional key. *)
Definition differs (a b : option string) : bool := negb (bool_decide (a = b)).

(** ** Configuration: the allowed origins

    [ALLOWED = [o.strip() for o in os.getenv("ALLOWED_ORIGINS","*").split(",")]].
    A text is read as its sequence of characters, each with a code below
    256. *)

(** [str.isspace] on one character: tab to carriage return, the four
    separators 28 to 31, the space, and the codes 133 and 160. *)
Definition isspace (c : ascii) : bool :=
  let n := N_of_ascii c in
  ((9 <=? n) && (n <=? 13) || (28 <=? n) && (n <=? 32) || (n =? 133) || (n =? 160))%N.

(** [s.split(sep)] for a separator of one character: every occurrence
    cuts, empty pieces are kept. *)
Fixpoint split_on (sep : ascii) (s : string) : list string :=
  match s with
  | EmptyString => [EmptyString]
  | String c rest =>
      if Ascii.eqb c sep then EmptyString :: split_on sep rest
      else match split_on sep rest with
           | [] => [String c EmptyString]
           | piece :: pieces => String c piece :: pieces
           end
  end.

(** [sep.join(pieces)] *)
Fixpoint join (sep : ascii) (pieces : list string) : string :=
  match pieces with
  | [] => EmptyString
  | [piece] => piece
  | piece :: rest => piece +:+ String sep (join sep rest)
  end.

Fixpoint lstrip (s : string) : string :=
  match s with
  | EmptyString => EmptyString
  | String c rest => if isspace c then lstrip rest else s
  end.

Fixpoint rstrip (s : string) : string :=
  match s with
  | EmptyString => EmptyString
  | String c rest =>
      match rstrip rest with
      | EmptyString => if isspace c then EmptyString else String c EmptyString
      | String _ _ as kept => String c kept
      end
  end.

(** [s.strip()] *)
Definition strip (s : string) : string := rstrip (lstrip s).

(** [os.getenv(name, default)], given the value of the variable if set. *)
Definition getenv (value : option string) (default : string) : string :=
  match value with
  | Some v => v
  | None => default
  end.

Definition ALLOWED (ALLOWED_ORIGINS : option string) : list string :=
  strip <$> split_on "," (getenv ALLOWED_ORIGINS "*").

(** [allow_origins=["*"] if ALLOWED == ["*"] else ALLOWED] *)
Definition allow_origins (allowed : list string) : list string :=
  if bool_decide (allowed = ["*"]) then ["*"] else allowed.

(** Vocabulary for texts. *)
Fixpoint occurrences (c : ascii) (s : string) : nat :=
  match s with
  | EmptyString => 0%nat
  | String c' rest => ((if Ascii.eqb c' c then 1 else 0) + occurrences c rest)%nat
  end.

Definition first_char (s : string) : option ascii :=
  match s with
  | EmptyString => None
  | String c _ => Some c
  end.

Fixpoint last_char (s : string) : option ascii :=
  match s with
  | EmptyString => None
  | String c EmptyString => Some c
  | String _ rest => last_char rest
  end.

(** ** Sample environments, for the examples

    A validator that accepts a text holding an [@] and keeps it as it is,
    a schema without constraints, and one with a unique [email]. *)

Fixpoint has_at (s : string) : bool :=
  match s with
  | EmptyString => false
  | String c rest => if Ascii.eqb c "@"%char then true else has_at rest
  end.

Definition at_EmailStr (s : string) : option string :=
  if has_at s then Some s else None.

Definition no_constraint (t : Table) (n e : string) : option string := None.

Definition unique_email (t : Table) (n e : string) : option string :=
  if existsb (fun kv => String.eqb kv.2.2 e) (map_to_list (rows t))
  then Some "UNIQUE constraint failed: users.email"
  else None.

(** A validator that, for a text holding an [@], lower-cases what follows
    the first [@]. *)
Definition lower (c : ascii) : ascii :=
  let n := N_of_ascii c in
  if ((65 <=? n) && (n <=? 90))%N then ascii_of_N (n + 32) else c.

Fixpoint lower_domain (in_domain : bool) (s : string) : string :=
  match s with
  | EmptyString => EmptyString
  | String c rest =>
      if in_domain then String (lower c) (lower_domain true rest)
      else String c (lower_domain (Ascii.eqb c "@") rest)
  end.

Definition lower_EmailStr (s : string) : option string :=
  if has_at s then Some (lower_domain false s) else None.

Definition empty_table : Table := {| rows := ∅; next_id := 1 |}.

(** A table holding Ada under id 1 and, under id 2, a row whose email
    holds no [@]. *)
Definition ada_and_zed : Table :=
  {| rows := <[2 := ("Zed", "not-an-email")]> (<[1 := ("Ada", "ada@example.com")]> ∅);
     next_id := 3 |}.

(** A table holding Ada under id 1 and Bob under id 2. *)
Definition two_users : Table :=
  {| rows := <[2 := ("Bob", "bob@example.com")]> (<[1 := ("Ada", "ada@example.com")]> ∅);
     next_id := 3 |}.

(** ** The service, over its environment *)

Section Service.

(** [API_KEY = os.getenv("API_KEY")] *)
Variable API_KEY : option string.

(** The validator behind [EmailStr]: the address as the model keeps it,
    or [None] when the text is not an e-mail address. *)
Variable EmailStr : string -> option string.

(** What the schema of [users], which the repository does not hold,
    refuses: given the other rows of the table, the store's reason not to
    take a row with this name and email. *)
Variable schema_reject : Table -> string -> string -> option string.

(** *** Statements on the table *)

Definition select_all (t : Table) : list UserOut.t :=
  merge_sort id_le (row_of <$> map_to_list (rows t)).

Definition select_by_id (i : Z) (t : Table) : list UserOut.t :=
  match rows t !! i with
  | Some (n, e) => [UserOut.Build i n e]
  | None => []
  end.

(** The effect of one statement on the table: the store's reason when it
    refuses, else the result set and the table afterwards. *)
Definition run_stmt (q : Stmt) (t : Table) : string + (CursorResult * Table) :=
  match q with
  | SELECT_all_ORDER_BY_id =>
      inr ({| fetched := select_all t; rowcount := -1 |}, t)
  | SELECT_WHERE_id i =>
      inr ({| fetched := select_by_id i t; rowcount := -1 |}, t)
  | INSERT_RETURNING n e =>
      match schema_reject t n e with
      | Some cause => inl cause
      | None =>
          match rows t !! next_id t with
          | Some _ => inl duplicate_key
          | None =>
              inr ({| fetched := [UserOut.Build (next_id t) n e]; rowcount := 1 |},
                   {| rows := <[next_id t := (n, e)]> (rows t);
                      next_id := next_id t + 1 |})
          end
      end
  | UPDATE_RETURNING i n e =>
      match rows t !! i with
      | Some _ =>
          match schema_reject {| rows := delete i (rows t); next_id := next_id t |} n e with
          | Some cause => inl cause
          | None =>
              inr ({| fetched := [UserOut.Build i n e]; rowcount := 1 |},
                   {| rows := <[i := (n, e)]> (rows t); next_id := next_id t |})
          end
      | None => inr ({| fetched := []; rowcount := 0 |}, t)
      end
  | DELETE_WHERE_id i =>
      match rows t !! i with
      | Some _ =>
          inr ({| fetched := []; rowcount := 1 |},
               {| rows := delete i (rows t); next_id := next_id t |})
      | None => inr ({| fetched := []; rowcount := 0 |}, t)
      end
  end.

(** [s.execute(text(...), params)]: the statement runs inside the
    session's transaction. *)
Definition execute (q : Stmt) : Sess CursorResult :=
  fun s =>
    match run_stmt q (txn s) with
    | inl cause =>
        (Raise (DBAPIError cause),
         {| store := store s; txn := txn s; trace := trace s ++ [Executed q] |})
    | inr (r, t') =>
        (Return r, {| store := store s; txn := t'; trace := trace s ++ [Executed q] |})
    end.

(** *** The route handlers *)

Local Open Scope sess_scope.

Definition health : json := JObj [("ok", JBool true)].

Definition list_users_body : Sess (list UserOut.t) :=
  r <- execute SELECT_all_ORDER_BY_id ;;
  ret (all r).

Definition list_users : Table -> Outcome (list UserOut.t) * Table :=
  with_session list_users_body.

Definition create_user_body (body : UserIn.t) : Sess UserOut.t :=
  try_except
    (r <- execute (INSERT_RETURNING (UserIn.name body) (UserIn.email body)) ;;
     row <- one r ;;
     commit ;;
     ret row)
    (fun e =>
       rollback ;;
       raise (HTTPException 400 ("insert failed: " +:+ str e))).

Definition create_user (body : UserIn.t) : Table -> Outcome UserOut.t * Table :=
  with_session (create_user_body body).

Definition get_user_body (user_id : Z) : Sess UserOut.t :=
  r <- execute (SELECT_WHERE_id user_id) ;;
  match first r with
  | None => raise (HTTPException 404 "not found")
  | Some row => ret row
  end.

Definition get_user (user_id : Z) : Table -> Outcome UserOut.t * Table :=
  with_session (get_user_body user_id).

Definition update_user_body (user_id : Z) (body : UserIn.t) : Sess UserOut.t :=
  r <- execute (UPDATE_RETURNING user_id (UserIn.name body) (UserIn.email body)) ;;
  match first r with
  | None => raise (HTTPException 404 "not found")
  | Some row => commit ;; ret row
  end.

Definition update_user (user_id : Z) (body : UserIn.t)
  : Table -> Outcome UserOut.t * Table :=
  with_session (update_user_body user_id body).

Definition delete_user_body (user_id : Z) : Sess unit :=
  res <- execute (DELETE_WHERE_id user_id) ;;
  if (rowcount res =? 0)%Z then raise (HTTPException 404 "not found")
  else commit ;; ret tt.

Definition delete_user (user_id : Z) : Table -> Outcome unit * Table :=
  with_session (delete_user_body user_id).

Local Close Scope sess_scope.

(** *** Request bodies: [body: UserIn] *)

Definition validate_name (items : list (string * json)) : list ErrorDetail + string :=
  match dict_get "name" items with
  | None => inl [{| kind := missing; loc := ["body"; "name"] |}]
  | Some (JStr s) => inr s
  | Some _ => inl [{| kind := string_type; loc := ["body"; "name"] |}]
  end.

Definition validate_email (items : list (string * json)) : list ErrorDetail + string :=
  match dict_get "email" items with
  | None => inl [{| kind := missing; loc := ["body"; "email"] |}]
  | Some (JStr s) =>
      match EmailStr s with
      | Some e => inr e
      | None => inl [{| kind := value_error; loc := ["body"; "email"] |}]
      end
  | Some _ => inl [{| kind := string_type; loc := ["body"; "email"] |}]
  end.

Definition UserIn_validate (body : option json) : list ErrorDetail + UserIn.t :=
  match body with
  | None => inl [{| kind := json_invalid; loc := ["body"] |}]
  | Some (JObj items) =>
      match validate_name items, validate_email items with
      | inr n, inr e => inr (UserIn.Build n e)
      | inl a, inr _ => inl a
      | inr _, inl b => inl b
      | inl a, inl b => inl (a ++ b)%list
      end
  | Some _ => inl [{| kind := model_attributes_type; loc := ["body"] |}]
  end.

(** *** Routes *)

(** A route with a [UserIn] body: a body that cannot be read is answered
    at once, and the handler runs on the validated model only. *)
Definition with_body (payload : Payload)
    (handler : UserIn.t -> Table -> Response * Table) (db : Table) : Response * Table :=
  match payload with
  | Undecodable => (body_parse_error, db)
  | Decoded body =>
      match UserIn_validate body with
      | inl errs => (validation_error errs, db)
      | inr b => handler b db
      end
  end.

Definition serve {A} (status : Z) (ser : A -> option Body)
    (handler : Table -> Outcome A * Table) (db : Table) : Response * Table :=
  let '(o, db') := handler db in (respond status ser o, db').

(** [response_model=UserOut]: the returned row is validated as a
    [UserOut], whose email is an [EmailStr]. *)
Definition UserOut_validate (u : UserOut.t) : option UserOut.t :=
  match EmailStr (UserOut.email u) with
  | Some e => Some (UserOut.Build (UserOut.id u) (UserOut.name u) e)
  | None => None
  end.

Definition user_body (u : UserOut.t) : option Body :=
  match UserOut_validate u with
  | Some v => Some (Json (UserOut.to_json v))
  | None => None
  end.

(** [response_model=list[UserOut]] *)
Definition users_body (l : list UserOut.t) : option Body :=
  match mapM UserOut_validate l with
  | Some vs => Some (Json (JArr (UserOut.to_json <$> vs)))
  | None => None
  end.

Definition no_body (_ : unit) : option Body := Some NoBody.

(** The routes as the decorators declare them. *)
Definition route (op : Operation) : Table -> Response * Table :=
  match op with
  | Health => fun db => (JSONResponse health 200, db)
  | ListUsers => serve 200 users_body list_users
  | CreateUser payload =>
      with_body payload (fun b => serve 201 user_body (create_user b))
  | GetUser user_id => serve 200 user_body (get_user user_id)
  | UpdateUser user_id payload =>
      with_body payload (fun b => serve 200 user_body (update_user user_id b))
  | DeleteUser user_id => serve 204 no_body (delete_user user_id)
  end.

(** *** The middleware *)

Definition api_key_guard (request : Request)
    (call_next : Request -> Table -> Response * Table) (db : Table)
  : Outcome Response * Table :=
  if truthy API_KEY && differs (headers_get "x-api-key" (headers request)) API_KEY
  then
    match load_global "fastapi" with
    | Return _ => (Return (JSONResponse (JObj [("error", JStr "unauthorized")]) 401), db)
    | Raise e => (Raise e, db)
    end
  else
    let '(r, db') := call_next request db in (Return r, db').

(** An exception that leaves the middleware reaches the server's error
    handler. *)
Definition finish (o : Outcome Response) : Response :=
  match o with
  | Return r => r
  | Raise _ => {| status_code := 500; content := Text "Internal Server Error" |}
  end.

Definition app (request : Request) (db : Table) : Response * Table :=
  let '(o, db') := api_key_guard request (fun rq => route (target rq)) db in
  (finish o, db').

(** *** Vocabulary of the properties *)

(** The answer to a request for an id the table does not hold. *)
Definition not_found : Response :=
  JSONResponse (JObj [("detail", JStr "not found")]) 404.

(** The answer to a create whose INSERT the store refused. *)
Definition insert_failed (cause : string) : Response :=
  JSONResponse (JObj [("detail", JStr ("insert failed: " +:+ cause))]) 400.


(** The listing a 200 carries, given the records in it. *)
Definition listing (l : list UserOut.t) : Response :=
  JSONResponse
    (JArr ((fun u => JObj [("id", JNum (UserOut.id u)); ("name", JStr (UserOut.name u));
                           ("email", JStr (UserOut.email u))]) <$> l)) 200.

(** The validator accepts every stored email and leaves it as it is. *)
Definition emails_kept (db : Table) : Prop :=
  forall i n e, rows db !! i = Some (n, e) -> EmailStr e = Some e.

(** The validator accepts the text. *)
Definition valid_email (e : string) : Prop := is_Some (EmailStr e).

(** Every stored row has an [email] the validator accepts. *)
Definition emails_valid (db : Table) : Prop :=
  forall i n e, rows db !! i = Some (n, e) -> valid_email e.

(** Every stored row has a non-empty [name] and an [email] the validator
    accepts. *)
Definition names_nonempty_emails_valid (db : Table) : Prop :=
  forall i n e, rows db !! i = Some (n, e) -> n <> EmptyString /\ valid_email e.

(** The body a route validates, if it takes one. *)
Definition body_of (op : Operation) : option json :=
  match op with
  | CreateUser (Decoded body) | UpdateUser _ (Decoded body) => body
  | CreateUser Undecodable | UpdateUser _ Undecodable => None
  | Health | ListUsers | GetUser _ | DeleteUser _ => None
  end.

(** The body is an object whose [name] is the text [n] and whose [email]
    is a text that the validator turns into [e]. *)
Definition written_from (body : option json) (n e : string) : Prop :=
  exists items raw,
    body = Some (JObj items) /\
    dict_get "name" items = Some (JStr n) /\
    dict_get "email" items = Some (JStr raw) /\
    EmailStr raw = Some e.

(** The session ran no write statement and no commit. *)
Definition read_only (tr : list Event) : bool :=
  forallb (fun ev => match ev with
                     | Executed q => negb (is_write q)
                     | Committed => false
                     | RolledBack => true
                     end) tr.

(** ** Properties *)

(** *** What each handler computes *)

Lemma list_users_eq (db : Table) :
  list_users db = (Return (select_all db), db).
Proof. reflexivity. Qed.

Lemma get_user_eq (user_id : Z) (db : Table) :
  get_user user_id db =
    match rows db !! user_id with
    | Some (n, e) => (Return (UserOut.Build user_id n e), db)
    | None => (Raise (HTTPException 404 "not found"), db)
    end.
Proof.
  unfold get_user, with_session, get_user_body, bind, execute; simpl.
  unfold select_by_id. destruct (rows db !! user_id) as [[n e]|]; reflexivity.
Qed.

Lemma update_user_eq (user_id : Z) (body : UserIn.t) (db : Table) :
  update_user user_id body db =
    match rows db !! user_id with
    | Some _ =>
        match schema_reject {| rows := delete user_id (rows db); next_id := next_id db |}
                (UserIn.name body) (UserIn.email body) with
        | Some cause => (Raise (DBAPIError cause), db)
        | None =>
            (Return (UserOut.Build user_id (UserIn.name body) (UserIn.email body)),
             {| rows := <[user_id := (UserIn.name body, UserIn.email body)]> (rows db);
                next_id := next_id db |})
        end
    | None => (Raise (HTTPException 404 "not found"), db)
    end.
Proof.
  unfold update_user, with_session, update_user_body, bind, execute; simpl.
  destruct (rows db !! user_id); [|reflexivity].
  destruct (schema_reject _ _ _); reflexivity.
Qed.

Lemma delete_user_eq (user_id : Z) (db : Table) :
  delete_user user_id db =
    match rows db !! user_id with
    | Some _ => (Return tt, {| rows := delete user_id (rows db); next_id := next_id db |})
    | None => (Raise (HTTPException 404 "not found"), db)
    end.
Proof.
  unfold delete_user, with_session, delete_user_body, bind, execute; simpl.
  destruct (rows db !! user_id); reflexivity.
Qed.

Lemma create_user_eq (body : UserIn.t) (db : Table) :
  create_user body db =
    match run_stmt (INSERT_RETURNING (UserIn.name body) (UserIn.email body)) db with
    | inl cause => (Raise (HTTPException 400 ("insert failed: " +:+ cause)), db)
    | inr (_, db') =>
        (Return (UserOut.Build (next_id db) (UserIn.name body) (UserIn.email body)), db')
    end.
Proof.
  unfold create_user, with_session, create_user_body, try_except, bind, execute; simpl.
  destruct (schema_reject db _ _); [reflexivity|].
  destruct (rows db !! next_id db); reflexivity.
Qed.

(** *** ORDER BY id *)

#[local] Instance id_le_total : Total id_le.
Proof. intros u v. unfold id_le. lia. Qed.

#[local] Instance id_le_trans : Transitive id_le.
Proof. intros u v w. unfold id_le. lia. Qed.

Lemma row_of_inj : Inj (=) (=) row_of.
Proof. intros [i [n e]] [j [m f]]. unfold row_of; simpl. congruence. Qed.

Lemma select_all_perm (db : Table) :
  select_all db ≡ₚ row_of <$> map_to_list (rows db).
Proof. unfold select_all. apply merge_sort_Permutation. Qed.

Lemma elem_of_select_all (db : Table) (u : UserOut.t) :
  u ∈ select_all db ↔
  rows db !! UserOut.id u = Some (UserOut.name u, UserOut.email u).
Proof.
  rewrite select_all_perm, list_elem_of_fmap. split.
  - intros [[i [n e]] [-> Hin]]. by apply elem_of_map_to_list in Hin.
  - intros Hl. exists (UserOut.id u, (UserOut.name u, UserOut.email u)).
    split; [by destruct u | by apply elem_of_map_to_list].
Qed.

Lemma select_all_ids (db : Table) :
  UserOut.id <$> select_all db ≡ₚ (map_to_list (rows db)).*1.
Proof.
  rewrite select_all_perm, <-list_fmap_compose.
  assert (UserOut.id ∘ row_of <$> map_to_list (rows db) = (map_to_list (rows db)).*1)
    as -> by (by apply list_fmap_ext).
  reflexivity.
Qed.

Lemma strict_of_NoDup (l : list UserOut.t) :
  StronglySorted id_le l → NoDup (UserOut.id <$> l) → StronglySorted id_lt l.
Proof.
  induction 1 as [|u l Hl IH Hu]; intros Hnd; [constructor|].
  apply NoDup_cons in Hnd as [Hnotin Hnd].
  constructor; [by apply IH|].
  apply Forall_forall. intros v Hv.
  assert (id_le u v) as Hle by (by eapply Forall_forall in Hu).
  assert (UserOut.id u ≠ UserOut.id v) as Hne.
  { intros Heq. apply Hnotin. rewrite Heq. by apply list_elem_of_fmap_2. }
  unfold id_le in Hle. unfold id_lt. lia.
Qed.

Lemma select_all_sorted (db : Table) : StronglySorted id_lt (select_all db).
Proof.
  apply strict_of_NoDup.
  - apply Sorted_StronglySorted; [apply _|]. apply Sorted_merge_sort, _.
  - rewrite select_all_ids. apply NoDup_fst_map_to_list.
Qed.

Lemma select_all_NoDup (db : Table) : NoDup (select_all db).
Proof.
  rewrite select_all_perm.
  apply NoDup_fmap_2; [apply row_of_inj | apply NoDup_map_to_list].
Qed.

Lemma select_all_empty (db : Table) : rows db = ∅ → select_all db = [].
Proof. intros Hr. unfold select_all. rewrite Hr, map_to_list_empty. reflexivity. Qed.

Lemma mapM_kept (l : list UserOut.t) :
  Forall (λ u, UserOut_validate u = Some u) l → mapM UserOut_validate l = Some l.
Proof. intros Hall. apply mapM_Some. by apply Forall_Forall2_diag. Qed.

Lemma UserOut_validate_kept (db : Table) :
  emails_kept db → Forall (λ u, UserOut_validate u = Some u) (select_all db).
Proof.
  intros Hkept. apply Forall_forall. intros u Hu.
  apply elem_of_select_all in Hu. unfold UserOut_validate.
  rewrite (Hkept _ _ _ Hu). by destruct u.
Qed.

Lemma route_list_kept (db : Table) :
  emails_kept db → route ListUsers db = (listing (select_all db), db).
Proof.
  intros Hkept. unfold route, serve. rewrite list_users_eq.
  unfold respond, users_body. by rewrite (mapM_kept _ (UserOut_validate_kept db Hkept)).
Qed.

(** C5, as the code has it.  For every state of the store in which the
    validator accepts each stored email and leaves it as it is, listing
    the users answers 200 with an array that holds every stored row
    exactly once, in ascending order of [id], and leaves the store as it
    was; an empty store gives the empty array. *)
Theorem list_users_all_rows_by_id (db : Table) :
  emails_kept db →
  route ListUsers db = (listing (select_all db), db) ∧
  NoDup (select_all db) ∧
  (∀ u, u ∈ select_all db ↔
        rows db !! UserOut.id u = Some (UserOut.name u, UserOut.email u)) ∧
  StronglySorted id_lt (select_all db) ∧
  (rows db = ∅ → route ListUsers db = (JSONResponse (JArr []) 200, db)).
Proof.
  intros Hkept.
  split; [by apply route_list_kept|].
  split; [apply select_all_NoDup|].
  split; [apply elem_of_select_all|].
  split; [apply select_all_sorted|].
  intros Hr. rewrite route_list_kept by done.
  rewrite (select_all_empty db Hr). reflexivity.
Qed.

(** *** Reads *)

(** C10. The health check, the listing and the lookup of one user
    are read-only: the health check opens no session, the two others run
    one SELECT and never commit, and the store after each of the three is
    the store before it. *)
Theorem reads_leave_the_store (db : Table) (user_id : Z) :
  (route Health db).2 = db ∧
  (route ListUsers db).2 = db ∧
  (route (GetUser user_id) db).2 = db ∧
  trace (list_users_body (SessionLocal db)).2 = [Executed SELECT_all_ORDER_BY_id] ∧
  trace (get_user_body user_id (SessionLocal db)).2 = [Executed (SELECT_WHERE_id user_id)] ∧
  read_only (trace (list_users_body (SessionLocal db)).2) = true ∧
  read_only (trace (get_user_body user_id (SessionLocal db)).2) = true.
Proof.
  assert (trace (get_user_body user_id (SessionLocal db)).2
          = [Executed (SELECT_WHERE_id user_id)]) as Hget.
  { unfold get_user_body, bind, execute; simpl. unfold select_by_id.
    destruct (rows db !! user_id) as [[n e]|]; reflexivity. }
  repeat split; try reflexivity; try assumption.
  - unfold route, serve. rewrite get_user_eq.
    destruct (rows db !! user_id) as [[n e]|]; reflexivity.
  - rewrite Hget. reflexivity.
Qed.

(** *** Ids the table does not hold *)

(** C6. For an id that the store does not hold, get, update and delete
    each raise the 404 "not found", which the framework answers as such,
    and the store afterwards is the store before. *)
Theorem absent_id_is_not_found (db : Table) (user_id : Z) (body : UserIn.t) :
  rows db !! user_id = None →
  get_user user_id db = (Raise (HTTPException 404 "not found"), db) ∧
  update_user user_id body db = (Raise (HTTPException 404 "not found"), db) ∧
  delete_user user_id db = (Raise (HTTPException 404 "not found"), db) ∧
  route (GetUser user_id) db = (not_found, db) ∧
  serve 200 user_body (update_user user_id body) db = (not_found, db) ∧
  route (DeleteUser user_id) db = (not_found, db).
Proof.
  intros Habsent. unfold route, serve.
  rewrite get_user_eq, update_user_eq, delete_user_eq, Habsent.
  repeat split; reflexivity.
Qed.

(** *** Delete *)

(** C7, as the code has it.  Deleting an id that the store holds answers
    204 with an empty body and removes that row and no other: a get of
    the id is then a 404, every other id keeps its row, the table has one
    row less, the SELECT of the listing returns exactly the rows it
    returned before, less that one, and the listing answers 200 with them
    when the validator accepts each remaining email and leaves it as it
    is. *)
Theorem delete_removes_one_row (db : Table) (user_id : Z) :
  is_Some (rows db !! user_id) →
  ∃ db',
    route (DeleteUser user_id) db = ({| status_code := 204; content := NoBody |}, db') ∧
    rows db' = delete user_id (rows db) ∧
    size (rows db) = S (size (rows db')) ∧
    route (GetUser user_id) db' = (not_found, db') ∧
    (∀ j, j ≠ user_id → rows db' !! j = rows db !! j) ∧
    (∀ u, u ∈ select_all db' ↔ u ∈ select_all db ∧ UserOut.id u ≠ user_id) ∧
    (emails_kept db' → route ListUsers db' = (listing (select_all db'), db')).
Proof.
  intros [row Hrow].
  exists {| rows := delete user_id (rows db); next_id := next_id db |}.
  split.
  { unfold route, serve. rewrite delete_user_eq, Hrow. reflexivity. }
  split; [reflexivity|].
  split.
  { simpl. rewrite map_size_delete, Hrow.
    assert (size (rows db) ≠ 0%nat) as Hpos.
    { intros Hz. apply map_size_empty_iff in Hz. rewrite Hz in Hrow.
      by rewrite lookup_empty in Hrow. }
    lia. }
  split.
  { unfold route, serve. rewrite get_user_eq. simpl.
    rewrite lookup_delete_eq. reflexivity. }
  split.
  { intros j Hj. simpl. by apply lookup_delete_ne. }
  split; [|apply route_list_kept].
  intros u. rewrite !elem_of_select_all. simpl.
  destruct (decide (UserOut.id u = user_id)) as [->|Hne].
  - rewrite lookup_delete_eq. split; [discriminate | intros [_ Hc]; by destruct Hc].
  - rewrite lookup_delete_ne by done. tauto.
Qed.

(** *** Create *)

(** C2. When the store refuses the INSERT of a create, whatever its
    reason, the handler rolls the transaction back and raises the 400
    whose message is "insert failed: " followed by the reason; the store
    afterwards holds what it held before. *)
Theorem insert_failure_is_rolled_back (db : Table) (body : UserIn.t) (cause : string) :
  run_stmt (INSERT_RETURNING (UserIn.name body) (UserIn.email body)) db = inl cause →
  create_user body db =
    (Raise (HTTPException 400 ("insert failed: " +:+ cause)), db) ∧
  serve 201 user_body (create_user body) db = (insert_failed cause, db) ∧
  (let s := (create_user_body body (SessionLocal db)).2 in
   trace s =
     [Executed (INSERT_RETURNING (UserIn.name body) (UserIn.email body)); RolledBack] ∧
   txn s = db ∧ store s = db).
Proof.
  intros Hfail. unfold serve. rewrite create_user_eq, Hfail.
  split; [reflexivity|]. split; [reflexivity|].
  unfold create_user_body, try_except, bind, execute, SessionLocal.
  cbn [txn store trace]. rewrite Hfail. repeat split; reflexivity.
Qed.

(** The create succeeds exactly when the store takes the INSERT. *)
Lemma create_user_accepted (db : Table) (body : UserIn.t) :
  schema_reject db (UserIn.name body) (UserIn.email body) = None →
  rows db !! next_id db = None →
  create_user body db =
    (Return (UserOut.Build (next_id db) (UserIn.name body) (UserIn.email body)),
     {| rows := <[next_id db := (UserIn.name body, UserIn.email body)]> (rows db);
        next_id := next_id db + 1 |}).
Proof.
  intros Hschema Hfresh. rewrite create_user_eq. unfold run_stmt.
  by rewrite Hschema, Hfresh.
Qed.

(** C3, as the code has it.  A create that is answered 201 carries a
    record with the id the store assigned, the name of the request, and
    its email as the validator returns it; a get of that id afterwards
    answers 200 with the same record. *)
Theorem create_then_get (db db' : Table) (items : list (string * json))
    (n raw : string) (r : Response) :
  dict_get "name" items = Some (JStr n) →
  dict_get "email" items = Some (JStr raw) →
  route (CreateUser (Decoded (Some (JObj items)))) db = (r, db') →
  status_code r = 201 →
  ∃ e e',
    EmailStr raw = Some e ∧ EmailStr e = Some e' ∧
    r = JSONResponse (JObj [("id", JNum (next_id db)); ("name", JStr n);
                            ("email", JStr e')]) 201 ∧
    rows db' !! next_id db = Some (n, e) ∧
    route (GetUser (next_id db)) db' =
      (JSONResponse (JObj [("id", JNum (next_id db)); ("name", JStr n);
                           ("email", JStr e')]) 200, db').
Proof.
  intros Hn He. unfold route, with_body, UserIn_validate, validate_name, validate_email.
  rewrite Hn, He. destruct (EmailStr raw) as [e|] eqn:Hraw.
  2: { intros [= <- <-] Hs. discriminate Hs. }
  unfold serve. rewrite create_user_eq. unfold run_stmt. simpl.
  destruct (schema_reject db n e).
  { intros [= <- <-] Hs. discriminate Hs. }
  destruct (rows db !! next_id db).
  { intros [= <- <-] Hs. discriminate Hs. }
  unfold respond, user_body, UserOut_validate. simpl.
  destruct (EmailStr e) as [e'|] eqn:He'.
  2: { intros [= <- <-] Hs. discriminate Hs. }
  intros [= <- <-] _. exists e, e'.
  split; [done|]. split; [done|]. split; [reflexivity|].
  split; [apply lookup_insert_eq|].
  rewrite get_user_eq. simpl. rewrite lookup_insert_eq. simpl. by rewrite He'.
Qed.

(** *** Update *)


(** *** Validation of the body *)

Lemma with_body_valid (body : option json) (b : UserIn.t)
    (handler : UserIn.t → Table → Response * Table) (db : Table) :
  UserIn_validate body = inr b → with_body (Decoded body) handler db = handler b db.
Proof. intros Hv. unfold with_body. by rewrite Hv. Qed.

Lemma route_create_valid (body : option json) (b : UserIn.t) (db : Table) :
  UserIn_validate body = inr b →
  route (CreateUser (Decoded body)) db = serve 201 user_body (create_user b) db.
Proof. intros Hv. simpl. unfold with_body. by rewrite Hv. Qed.

Lemma route_update_valid (user_id : Z) (body : option json) (b : UserIn.t) (db : Table) :
  UserIn_validate body = inr b →
  route (UpdateUser user_id (Decoded body)) db =
    serve 200 user_body (update_user user_id b) db.
Proof. intros Hv. simpl. unfold with_body. by rewrite Hv. Qed.

Lemma UserIn_validate_inr (body : option json) (b : UserIn.t) :
  UserIn_validate body = inr b →
  written_from body (UserIn.name b) (UserIn.email b).
Proof.
  unfold UserIn_validate, validate_name, validate_email, written_from.
  destruct body as [[| | | | |items]|]; try discriminate.
  destruct (dict_get "name" items) as [[| | |n| |]|] eqn:Hn;
    destruct (dict_get "email" items) as [[| | |raw| |]|] eqn:He;
    try destruct (EmailStr raw) as [e|] eqn:Hraw; try discriminate.
  intros [= <-]. by exists items, raw.
Qed.



(** *** What gets written *)

Lemma serve_store {A} (status : Z) (ser : A → option Body)
    (handler : Table → Outcome A * Table) (db : Table) :
  (serve status ser handler db).2 = (handler db).2.
Proof. unfold serve. by destruct (handler db). Qed.

Lemma row_after (op : Operation) (db : Table) (i : Z) (n e : string) :
  rows (route op db).2 !! i = Some (n, e) →
  rows db !! i = Some (n, e) ∨ written_from (body_of op) n e.
Proof.
  destruct op as [| |[|body]|user_id|user_id [|body]|user_id];
    unfold route, with_body; cbn [body_of].
  - auto.
  - rewrite serve_store, list_users_eq. auto.
  - auto.
  - destruct (UserIn_validate body) as [errs|b] eqn:Hv; [auto|].
    apply UserIn_validate_inr in Hv. rewrite serve_store, create_user_eq.
    unfold run_stmt. destruct (schema_reject db _ _); [auto|].
    destruct (rows db !! next_id db) eqn:Hfresh; [auto|]. simpl.
    destruct (decide (next_id db = i)) as [->|Hne].
    + rewrite lookup_insert_eq. intros [= <- <-]. by right.
    + rewrite lookup_insert_ne by done. auto.
  - rewrite serve_store, get_user_eq.
    destruct (rows db !! user_id) as [[? ?]|]; auto.
  - auto.
  - destruct (UserIn_validate body) as [errs|b] eqn:Hv; [auto|].
    apply UserIn_validate_inr in Hv. rewrite serve_store, update_user_eq.
    destruct (rows db !! user_id) eqn:Hrow; [|auto].
    destruct (schema_reject _ _ _); [auto|]. simpl.
    destruct (decide (user_id = i)) as [->|Hne].
    + rewrite lookup_insert_eq. intros [= <- <-]. by right.
    + rewrite lookup_insert_ne by done. auto.
  - rewrite serve_store, delete_user_eq.
    destruct (rows db !! user_id) eqn:Hrow; [|auto]. simpl.
    intros Hl. apply lookup_delete_Some in Hl as [_ Hl]. auto.
Qed.

(** C9, as the code has it.  Provided the validator accepts what it
    returns, every row that an operation leaves in the store and that was
    not there before carries the [name] text of the request body, which
    may be empty, and an email that the validator accepts; so every
    operation preserves that all stored emails are valid. *)
Theorem written_rows_have_valid_emails (op : Operation) (db : Table) :
  (∀ raw e, EmailStr raw = Some e → valid_email e) →
  (∀ i n e, rows (route op db).2 !! i = Some (n, e) →
            rows db !! i = Some (n, e) ∨
            (written_from (body_of op) n e ∧ valid_email e)) ∧
  (emails_valid db → emails_valid (route op db).2).
Proof.
  intros Hclosed.
  assert (∀ i n e, rows (route op db).2 !! i = Some (n, e) →
            rows db !! i = Some (n, e) ∨
            (written_from (body_of op) n e ∧ valid_email e)) as Hrows.
  { intros i n e Hl. apply row_after in Hl as [Hold|Hnew]; [by left|right].
    split; [done|]. destruct Hnew as (items & raw & _ & _ & _ & Hraw). eauto. }
  split; [done|].
  intros Hinv i n e Hl. apply Hrows in Hl as [Hold|[_ Hv]]; [by eapply Hinv | done].
Qed.

(** *** The key guard *)

Lemma load_global_fastapi : load_global "fastapi" = Raise (NameError "fastapi").
Proof. reflexivity. Qed.

Lemma api_key_guard_pass (request : Request)
    (call_next : Request → Table → Response * Table) (db : Table) :
  truthy API_KEY = false ∨ headers_get "x-api-key" (headers request) = API_KEY →
  api_key_guard request call_next db =
    ((Return (call_next request db).1), (call_next request db).2).
Proof.
  unfold api_key_guard, differs. intros [-> | ->].
  - simpl. by destruct (call_next request db).
  - rewrite bool_decide_eq_true_2 by done. rewrite andb_false_r.
    by destruct (call_next request db).
Qed.

Lemma api_key_guard_mismatch (request : Request)
    (call_next : Request → Table → Response * Table) (db : Table) :
  truthy API_KEY = true →
  headers_get "x-api-key" (headers request) ≠ API_KEY →
  api_key_guard request call_next db = (Raise (NameError "fastapi"), db).
Proof.
  unfold api_key_guard, differs. intros -> Hne.
  rewrite bool_decide_eq_false_2 by done. reflexivity.
Qed.

(** *** Further properties of the handlers *)

(** Each writing handler sends one statement.  Create commits when its
    INSERT is taken and rolls back when it is refused; update commits
    when its UPDATE is taken and has changed a row, delete when its
    DELETE has removed one; an update or a delete that matches no row,
    and an update that the store refuses, end without commit or
    rollback. *)
Theorem writes_send_one_statement (db : Table) (user_id : Z) (body : UserIn.t) :
  let insert := INSERT_RETURNING (UserIn.name body) (UserIn.email body) in
  let update := UPDATE_RETURNING user_id (UserIn.name body) (UserIn.email body) in
  let delete := DELETE_WHERE_id user_id in
  let committed_if_changed (q : Stmt) :=
    match run_stmt q db with
    | inl _ => []
    | inr (r, _) => if (rowcount r =? 0)%Z then [] else [Committed]
    end in
  trace (create_user_body body (SessionLocal db)).2 =
    [Executed insert; if run_stmt insert db is inr _ then Committed else RolledBack] ∧
  trace (update_user_body user_id body (SessionLocal db)).2 =
    Executed update :: committed_if_changed update ∧
  trace (delete_user_body user_id (SessionLocal db)).2 =
    Executed delete :: committed_if_changed delete.
Proof.
  intros insert update delete committed_if_changed. split; [|split].
  - unfold create_user_body, try_except, bind, execute, SessionLocal.
    cbn [txn store trace]. subst insert. unfold run_stmt.
    destruct (schema_reject db _ _); [reflexivity|].
    destruct (rows db !! next_id db); reflexivity.
  - subst committed_if_changed update.
    unfold update_user_body, bind, execute, SessionLocal, run_stmt.
    cbn [txn store trace].
    destruct (rows db !! user_id); [|reflexivity].
    destruct (schema_reject _ _ _); reflexivity.
  - subst committed_if_changed delete.
    unfold delete_user_body, bind, execute, SessionLocal, run_stmt.
    cbn [txn store trace].
    destruct (rows db !! user_id); reflexivity.
Qed.

(** Whatever happens inside its [try], create either returns the
    inserted row or raises the 400 "insert failed: ..." and leaves the
    store as it was: no other exception leaves the handler. *)
Theorem create_user_returns_or_400 (db : Table) (body : UserIn.t) :
  (∃ u db', create_user body db = (Return u, db')) ∨
  (∃ cause,
     create_user body db = (Raise (HTTPException 400 ("insert failed: " +:+ cause)), db)).
Proof.
  rewrite create_user_eq.
  destruct (run_stmt _ db) as [cause|[r db']]; [right|left]; eauto.
Qed.

(** A create that succeeds adds one row under an id that was not in use
    and leaves every other row as it was; the listing afterwards holds
    the new record and the records it held before. *)
Theorem create_adds_one_row (db db' : Table) (body : UserIn.t) (u : UserOut.t) :
  create_user body db = (Return u, db') →
  rows db !! UserOut.id u = None ∧
  rows db' = <[UserOut.id u := (UserIn.name body, UserIn.email body)]> (rows db) ∧
  (∀ j, j ≠ UserOut.id u → rows db' !! j = rows db !! j) ∧
  size (rows db') = S (size (rows db)) ∧
  (∀ v, v ∈ select_all db' ↔ v = u ∨ v ∈ select_all db).
Proof.
  rewrite create_user_eq. unfold run_stmt.
  destruct (schema_reject db _ _); [discriminate|].
  destruct (rows db !! next_id db) eqn:Hfresh; [discriminate|].
  intros [= <- <-]. simpl.
  split; [done|]. split; [done|].
  split; [intros j Hj; by rewrite lookup_insert_ne|].
  split; [by apply map_size_insert_None|].
  intros v. rewrite !elem_of_select_all. simpl.
  destruct (decide (UserOut.id v = next_id db)) as [Heq|Hne].
  - rewrite Heq, lookup_insert_eq, Hfresh. split.
    + intros [= Hn He]. left. destruct v; simpl in *. congruence.
    + intros [-> | ?]; [reflexivity | discriminate].
  - rewrite lookup_insert_ne by done. split; [by right|].
    intros [-> | ?]; [by destruct Hne | done].
Qed.

(** Deleting the user that a create has just returned gives back the
    rows the table held before the create. *)
Theorem create_then_delete (db db' : Table) (body : UserIn.t) (u : UserOut.t) :
  create_user body db = (Return u, db') →
  ∃ db'', delete_user (UserOut.id u) db' = (Return tt, db'') ∧ rows db'' = rows db.
Proof.
  rewrite create_user_eq. unfold run_stmt.
  destruct (schema_reject db _ _); [discriminate|].
  destruct (rows db !! next_id db) eqn:Hfresh; [discriminate|].
  intros [= <- <-]. rewrite delete_user_eq. simpl. rewrite lookup_insert_eq.
  eexists. split; [reflexivity|]. simpl.
  rewrite delete_insert_eq. by apply delete_id.
Qed.

(** An update touches the row of its id only: every other row, the set
    of ids and the id generator stay as they were, whether the update is
    taken, refused by the store or matches no row; and sending the same
    update again gives the same outcome and changes nothing more. *)
Theorem update_touches_one_row (db : Table) (user_id : Z) (body : UserIn.t) :
  let db' := (update_user user_id body db).2 in
  (∀ j, j ≠ user_id → rows db' !! j = rows db !! j) ∧
  dom (rows db') = dom (rows db) ∧
  next_id db' = next_id db ∧
  update_user user_id body db' = ((update_user user_id body db).1, db').
Proof.
  intros db'. subst db'. rewrite update_user_eq.
  destruct (rows db !! user_id) as [old|] eqn:Hrow.
  - destruct (schema_reject _ _ _) as [cause|] eqn:Hschema; simpl.
    + rewrite update_user_eq, Hrow, Hschema. repeat split; reflexivity.
    + split; [intros j Hj; by rewrite lookup_insert_ne|].
      split; [apply dom_insert_lookup_L; by exists old|].
      split; [reflexivity|].
      rewrite update_user_eq. simpl. rewrite lookup_insert_eq.
      rewrite delete_insert_eq, Hschema. by rewrite insert_insert_eq.
  - simpl. rewrite update_user_eq, Hrow. repeat split; reflexivity.
Qed.

(** A get never changes the store.  It answers 404 for an id that the
    table does not hold; for an id that it holds, 200 with the id, the
    stored name and the stored email as the validator returns it, and
    the plain 500 when the validator refuses the stored email. *)
Theorem get_returns_the_stored_row (db : Table) (user_id : Z) :
  route (GetUser user_id) db =
    (match rows db !! user_id with
     | None => not_found
     | Some (n, e) =>
         match EmailStr e with
         | Some e' =>
             JSONResponse (JObj [("id", JNum user_id); ("name", JStr n);
                                 ("email", JStr e')]) 200
         | None => {| status_code := 500; content := Text "Internal Server Error" |}
         end
     end, db).
Proof.
  unfold route, serve. rewrite get_user_eq.
  destruct (rows db !! user_id) as [[n e]|]; [|reflexivity].
  unfold respond, user_body, UserOut_validate. simpl.
  destruct (EmailStr e); reflexivity.
Qed.

(** The listing and the lookup agree: a record is in the listing exactly
    when a get of its id returns it. *)
Theorem list_and_get_agree (db : Table) :
  ∃ l, list_users db = (Return l, db) ∧
       ∀ u, u ∈ l ↔ get_user (UserOut.id u) db = (Return u, db).
Proof.
  exists (select_all db). split; [apply list_users_eq|].
  intros u. rewrite elem_of_select_all, get_user_eq.
  destruct (rows db !! UserOut.id u) as [[n e]|]; simpl.
  - destruct u as [i n' e']; simpl. split; intros [= -> ->]; reflexivity.
  - split; discriminate.
Qed.

(** Provided the validator accepts what it returns, a request that is
    answered with an error status has written nothing: the store after
    it is the store before. *)
Theorem errors_write_nothing (op : Operation) (db : Table) :
  (∀ raw e, EmailStr raw = Some e → valid_email e) →
  400 <= status_code (route op db).1 → (route op db).2 = db.
Proof.
  intros Hclosed.
  destruct op as [| |[|body]|user_id|user_id [|body]|user_id];
    unfold route, with_body.
  - reflexivity.
  - intros _. by rewrite serve_store, list_users_eq.
  - reflexivity.
  - destruct (UserIn_validate body) as [errs|b] eqn:Hv; [reflexivity|].
    apply UserIn_validate_inr in Hv as (items & raw & _ & _ & _ & Hraw).
    apply Hclosed in Hraw as [e' He'].
    unfold serve. rewrite create_user_eq.
    destruct (run_stmt _ db) as [cause|[r db']]; [reflexivity|].
    unfold respond, user_body, UserOut_validate. simpl. rewrite He'. simpl. lia.
  - intros _. rewrite serve_store, get_user_eq.
    by destruct (rows db !! user_id) as [[? ?]|].
  - reflexivity.
  - destruct (UserIn_validate body) as [errs|b] eqn:Hv; [reflexivity|].
    apply UserIn_validate_inr in Hv as (items & raw & _ & _ & _ & Hraw).
    apply Hclosed in Hraw as [e' He'].
    unfold serve. rewrite update_user_eq.
    destruct (rows db !! user_id); [|reflexivity].
    destruct (schema_reject _ _ _); [reflexivity|].
    unfold respond, user_body, UserOut_validate. simpl. rewrite He'. simpl. lia.
  - unfold serve. rewrite delete_user_eq.
    destruct (rows db !! user_id); simpl; [lia | reflexivity].
Qed.

(** A body is accepted exactly when it is an object whose [name] is a
    text and whose [email] is a text that the validator accepts; the
    model then holds that name, empty or not, and the validator's result.
    Other keys of the object play no part. *)
Theorem UserIn_accepts_iff (body : option json) (b : UserIn.t) :
  UserIn_validate body = inr b ↔ written_from body (UserIn.name b) (UserIn.email b).
Proof.
  split; [apply UserIn_validate_inr|].
  intros (items & raw & -> & Hn & He & Hraw).
  unfold UserIn_validate, validate_name, validate_email.
  rewrite Hn, He, Hraw. by destruct b.
Qed.

(** *** Further properties of the key guard *)

(** The guard has two outcomes only.  When no key is configured, or the
    configured key is empty, or the header carries the key, the request
    is handed to [call_next] and its answer and store are returned as
    they are.  Otherwise [call_next] is not consulted, the store is left
    as it was and the guard raises. *)
Theorem api_key_guard_forwards_or_raises (request : Request)
    (call_next : Request → Table → Response * Table) (db : Table) :
  ((truthy API_KEY = false ∨ headers_get "x-api-key" (headers request) = API_KEY) ∧
   api_key_guard request call_next db =
     (Return (call_next request db).1, (call_next request db).2)) ∨
  ((truthy API_KEY = true ∧ headers_get "x-api-key" (headers request) ≠ API_KEY) ∧
   api_key_guard request call_next db = (Raise (NameError "fastapi"), db)).
Proof.
  destruct (truthy API_KEY) eqn:Hkey.
  - destruct (decide (headers_get "x-api-key" (headers request) = API_KEY)) as [Heq|Hne].
    + left. split; [by right|]. apply api_key_guard_pass. by right.
    + right. split; [done|]. by apply api_key_guard_mismatch.
  - left. split; [by left|]. apply api_key_guard_pass. by left.
Qed.

(** A request that passes the guard is answered by its route, and the
    store becomes what the route leaves. *)
Theorem app_is_the_route_behind_the_guard (request : Request) (db : Table) :
  truthy API_KEY = false ∨ headers_get "x-api-key" (headers request) = API_KEY →
  app request db = route (target request) db.
Proof.
  intros Hpass. unfold app. rewrite api_key_guard_pass by done. simpl.
  by destruct (route (target request) db).
Qed.

End Service.

(** ** The properties on sample data *)

Lemma at_EmailStr_closed (raw e : string) :
  at_EmailStr raw = Some e → valid_email at_EmailStr e.
Proof.
  unfold at_EmailStr, valid_email. destruct (has_at raw) eqn:Hat; [|discriminate].
  intros [= <-]. rewrite Hat. eauto.
Qed.

Lemma two_users_emails_kept : emails_kept at_EmailStr two_users.
Proof.
  intros i n e Hl. unfold two_users in Hl. simpl in Hl.
  apply lookup_insert_Some in Hl as [[_ [= <- <-]]|[_ Hl]]; [reflexivity|].
  apply lookup_insert_Some in Hl as [[_ [= <- <-]]|[_ Hl]]; [reflexivity|].
  by rewrite lookup_empty in Hl.
Qed.

(** Listing the two-user table. *)
Lemma list_users_all_rows_by_id_witness :
  emails_kept at_EmailStr two_users ∧
  route at_EmailStr no_constraint ListUsers two_users =
    (JSONResponse
       (JArr [JObj [("id", JNum 1); ("name", JStr "Ada");
                    ("email", JStr "ada@example.com")];
              JObj [("id", JNum 2); ("name", JStr "Bob");
                    ("email", JStr "bob@example.com")]]) 200,
     two_users).
Proof.
  split; [exact two_users_emails_kept|].
  exact (proj1 (list_users_all_rows_by_id at_EmailStr no_constraint two_users
                  two_users_emails_kept)).
Defined.

(** C5, as the claim has it, fails: with a stored email that the
    validator refuses, the listing is answered with the plain 500. *)
Lemma refused_email_breaks_the_listing :
  route at_EmailStr no_constraint ListUsers ada_and_zed =
    ({| status_code := 500; content := Text "Internal Server Error" |}, ada_and_zed).
Proof. vm_compute. reflexivity. Qed.

(** No row of the two-user table has id 7: get answers 404. *)
Lemma absent_id_is_not_found_witness :
  rows two_users !! 7 = None ∧
  route at_EmailStr no_constraint (GetUser 7) two_users = (not_found, two_users) ∧
  route at_EmailStr no_constraint (DeleteUser 7) two_users = (not_found, two_users).
Proof.
  assert (rows two_users !! 7 = None) as Habsent by (vm_compute; reflexivity).
  split; [exact Habsent|].
  destruct (absent_id_is_not_found at_EmailStr no_constraint two_users 7
              (UserIn.Build "Eve" "eve@example.com") Habsent)
    as (_ & _ & _ & Hget & _ & Hdel).
  split; [exact Hget | exact Hdel].
Defined.

(** Deleting Ada from the two-user table leaves Bob. *)
Lemma delete_removes_one_row_witness :
  is_Some (rows two_users !! 1) ∧
  ∃ db', route at_EmailStr no_constraint (DeleteUser 1) two_users =
           ({| status_code := 204; content := NoBody |}, db') ∧
         rows db' = delete 1 (rows two_users) ∧
         route at_EmailStr no_constraint (GetUser 1) db' = (not_found, db').
Proof.
  assert (is_Some (rows two_users !! 1)) as Hheld
    by (exists ("Ada", "ada@example.com"); vm_compute; reflexivity).
  split; [exact Hheld|].
  destruct (delete_removes_one_row at_EmailStr no_constraint two_users 1 Hheld)
    as (db' & Hdel & Hrows & _ & Hget & _).
  exists db'. split; [exact Hdel|]. split; [exact Hrows | exact Hget].
Defined.

(** C7, as the claim has it, fails: after Ada is deleted from a table
    that also holds a row whose email the validator refuses, that row is
    unchanged but the listing does not return it. *)
Lemma remaining_row_is_not_listed :
  let db' := {| rows := delete 1 (rows ada_and_zed); next_id := 3 |} in
  route at_EmailStr no_constraint (DeleteUser 1) ada_and_zed =
    ({| status_code := 204; content := NoBody |}, db') ∧
  rows db' !! 2 = Some ("Zed", "not-an-email") ∧
  route at_EmailStr no_constraint ListUsers db' =
    ({| status_code := 500; content := Text "Internal Server Error" |}, db').
Proof. repeat split; vm_compute; reflexivity. Qed.

(** Under a unique [email], a second user with Bob's address is refused. *)
Lemma insert_failure_is_rolled_back_witness :
  run_stmt unique_email (INSERT_RETURNING "Rob" "bob@example.com") two_users =
    inl "UNIQUE constraint failed: users.email" ∧
  create_user unique_email (UserIn.Build "Rob" "bob@example.com") two_users =
    (Raise (HTTPException 400 "insert failed: UNIQUE constraint failed: users.email"),
     two_users).
Proof.
  assert (run_stmt unique_email (INSERT_RETURNING "Rob" "bob@example.com") two_users =
            inl "UNIQUE constraint failed: users.email") as Hfail
    by (vm_compute; reflexivity).
  split; [exact Hfail|].
  exact (proj1 (insert_failure_is_rolled_back at_EmailStr unique_email two_users
                  (UserIn.Build "Rob" "bob@example.com") _ Hfail)).
Defined.

(** Creating Eve in the two-user table assigns id 3; a get of 3 returns
    her. *)
Lemma create_then_get_witness :
  let items := [("name", JStr "Eve"); ("email", JStr "eve@example.com")] in
  let eve := JObj [("id", JNum 3); ("name", JStr "Eve");
                   ("email", JStr "eve@example.com")] in
  let db' := {| rows := <[3 := ("Eve", "eve@example.com")]> (rows two_users);
                next_id := 4 |} in
  route at_EmailStr no_constraint (CreateUser (Decoded (Some (JObj items)))) two_users =
    (JSONResponse eve 201, db') ∧
  route at_EmailStr no_constraint (GetUser 3) db' = (JSONResponse eve 200, db').
Proof.
  intros items eve db'.
  assert (route at_EmailStr no_constraint (CreateUser (Decoded (Some (JObj items))))
            two_users = (JSONResponse eve 201, db')) as Hcreate
    by (vm_compute; reflexivity).
  split; [exact Hcreate|].
  destruct (create_then_get at_EmailStr no_constraint two_users db' items
              "Eve" "eve@example.com" (JSONResponse eve 201)
              eq_refl eq_refl Hcreate eq_refl)
    as (e & e' & He & He' & _ & _ & Hget).
  vm_compute in He. injection He as <-. vm_compute in He'. injection He' as <-.
  exact Hget.
Defined.

(** C3, as the claim has it, fails: under a validator that lower-cases
    the domain, the record of the 201 and of the get that follows carries
    another email than the request. *)
Lemma create_returns_another_email :
  let items := [("name", JStr "Ada"); ("email", JStr "Ada@EXAMPLE.COM")] in
  let ada := JObj [("id", JNum 1); ("name", JStr "Ada");
                   ("email", JStr "Ada@example.com")] in
  let created := route lower_EmailStr no_constraint
                   (CreateUser (Decoded (Some (JObj items)))) empty_table in
  created.1 = JSONResponse ada 201 ∧
  route lower_EmailStr no_constraint (GetUser 1) created.2 =
    (JSONResponse ada 200, created.2) ∧
  "Ada@example.com" ≠ "Ada@EXAMPLE.COM".
Proof. repeat split; try (vm_compute; reflexivity). discriminate. Qed.





(** Creating Ada in the empty table keeps all stored emails valid. *)
Lemma written_rows_have_valid_emails_witness :
  let op := CreateUser (Decoded (Some (JObj [("name", JStr "Ada");
                                             ("email", JStr "ada@example.com")]))) in
  (∀ raw e, at_EmailStr raw = Some e → valid_email at_EmailStr e) ∧
  emails_valid at_EmailStr empty_table ∧
  emails_valid at_EmailStr (route at_EmailStr no_constraint op empty_table).2.
Proof.
  intros op.
  assert (emails_valid at_EmailStr empty_table) as Hinv.
  { intros i n e Hl. vm_compute in Hl. discriminate. }
  split; [exact at_EmailStr_closed|]. split; [exact Hinv|].
  exact (proj2 (written_rows_have_valid_emails at_EmailStr no_constraint op
                  empty_table at_EmailStr_closed) Hinv).
Defined.

(** C9, as the claim has it, fails: a create whose [name] is the empty
    text passes validation, answers 201 and stores the row. *)
Lemma empty_name_is_stored :
  let op := CreateUser (Decoded (Some (JObj [("name", JStr EmptyString);
                                             ("email", JStr "ada@example.com")]))) in
  names_nonempty_emails_valid at_EmailStr empty_table ∧
  status_code (route at_EmailStr no_constraint op empty_table).1 = 201 ∧
  rows (route at_EmailStr no_constraint op empty_table).2 !! 1 =
    Some (EmptyString, "ada@example.com") ∧
  ¬ names_nonempty_emails_valid at_EmailStr
      (route at_EmailStr no_constraint op empty_table).2.
Proof.
  intros op.
  assert (rows (route at_EmailStr no_constraint op empty_table).2 !! 1 =
            Some (EmptyString, "ada@example.com")) as Hrow
    by (vm_compute; reflexivity).
  split.
  { intros i n e Hl. vm_compute in Hl. discriminate. }
  split; [vm_compute; reflexivity|]. split; [exact Hrow|].
  intros Hinv. destruct (Hinv _ _ _ Hrow) as [Hname _]. by apply Hname.
Qed.

(** C1, on the code.  With the key "secret" configured, a request without
    the header is not passed on, but the guard does not answer 401
    either: building the answer evaluates the name [fastapi], which the
    module never binds, and the request ends as the server's 500. *)
Theorem unauthorized_request_is_a_500
    (call_next : Request → Table → Response * Table) (db : Table) :
  let request := {| headers := []; target := Health |} in
  api_key_guard (Some "secret") request call_next db =
    (Raise (NameError "fastapi"), db) ∧
  app (Some "secret") at_EmailStr no_constraint request db =
    ({| status_code := 500; content := Text "Internal Server Error" |}, db) ∧
  app (Some "secret") at_EmailStr no_constraint
      {| headers := [("x-api-key", "secret")]; target := Health |} db =
    (JSONResponse health 200, db).
Proof. repeat split; reflexivity. Qed.

(** ** The allowed origins *)

Lemma split_on_nonempty (sep : ascii) (s : string) : split_on sep s ≠ [].
Proof.
  destruct s as [|c rest]; simpl; [discriminate|].
  destruct (Ascii.eqb c sep); [discriminate|].
  destruct (split_on sep rest); discriminate.
Qed.

Lemma split_on_length (sep : ascii) (s : string) :
  length (split_on sep s) = S (occurrences sep s).
Proof.
  induction s as [|c rest IH]; simpl; [reflexivity|].
  destruct (Ascii.eqb c sep); simpl; [by rewrite IH|].
  destruct (split_on sep rest) as [|piece pieces] eqn:Hs; simpl in *; [discriminate | done].
Qed.

Lemma split_on_pieces (sep : ascii) (s : string) :
  Forall (λ piece, occurrences sep piece = 0%nat) (split_on sep s).
Proof.
  induction s as [|c rest IH]; simpl.
  - by repeat constructor.
  - destruct (Ascii.eqb c sep) eqn:Hc; [by constructor|].
    destruct (split_on sep rest) as [|piece pieces]; simpl.
    + repeat constructor. simpl. by rewrite Hc.
    + apply Forall_cons in IH as [Hp Hps]. constructor; [|done].
      simpl. by rewrite Hc.
Qed.

Lemma join_split_on (sep : ascii) (s : string) : join sep (split_on sep s) = s.
Proof.
  induction s as [|c rest IH]; simpl; [reflexivity|].
  destruct (Ascii.eqb_spec c sep) as [->|Hne].
  - pose proof (split_on_nonempty sep rest) as Hne.
    destruct (split_on sep rest) as [|piece pieces]; [done|].
    simpl in *. by rewrite IH.
  - pose proof (split_on_nonempty sep rest) as Hnil.
    destruct (split_on sep rest) as [|piece pieces]; [done|].
    destruct pieces as [|piece' pieces]; simpl in *; by rewrite <-IH.
Qed.

Lemma split_on_piece (sep : ascii) (piece : string) :
  occurrences sep piece = 0%nat → split_on sep piece = [piece].
Proof.
  induction piece as [|c rest IH]; simpl; [done|].
  destruct (Ascii.eqb c sep); [discriminate|].
  intros Hrest. by rewrite IH.
Qed.

Lemma split_on_append (sep : ascii) (piece s : string) :
  occurrences sep piece = 0%nat →
  split_on sep (piece +:+ String sep s) = piece :: split_on sep s.
Proof.
  induction piece as [|c rest IH]; simpl.
  - intros _. by rewrite Ascii.eqb_refl.
  - destruct (Ascii.eqb c sep); [discriminate|].
    intros Hrest. by rewrite IH.
Qed.

Lemma split_on_join (sep : ascii) (pieces : list string) :
  pieces ≠ [] →
  Forall (λ piece, occurrences sep piece = 0%nat) pieces →
  split_on sep (join sep pieces) = pieces.
Proof.
  induction pieces as [|piece rest IH]; [done|].
  intros _ Hall. apply Forall_cons in Hall as [Hp Hrest].
  destruct rest as [|piece' rest]; simpl.
  - by apply split_on_piece.
  - rewrite split_on_append by done. f_equal. by apply IH.
Qed.

Lemma lstrip_first (s : string) (c : ascii) :
  first_char (lstrip s) = Some c → isspace c = false.
Proof.
  induction s as [|c' rest IH]; simpl; [discriminate|].
  destruct (isspace c') eqn:Hc'; [done|].
  simpl. by intros [= <-].
Qed.

Lemma rstrip_last (s : string) (c : ascii) :
  last_char (rstrip s) = Some c → isspace c = false.
Proof.
  induction s as [|c' rest IH]; simpl; [discriminate|].
  destruct (rstrip rest) as [|c'' kept] eqn:Hr.
  - destruct (isspace c') eqn:Hc'; simpl; [discriminate|]. by intros [= <-].
  - simpl. simpl in IH. done.
Qed.

Lemma rstrip_first (s : string) (c : ascii) :
  first_char (rstrip s) = Some c → first_char s = Some c.
Proof.
  destruct s as [|c' rest]; simpl; [done|].
  destruct (rstrip rest); [destruct (isspace c')|]; simpl; done.
Qed.

Lemma lstrip_fixed (s : string) :
  (∀ c, first_char s = Some c → isspace c = false) → lstrip s = s.
Proof.
  destruct s as [|c rest]; simpl; [done|].
  intros Hc. by rewrite (Hc c eq_refl).
Qed.

Lemma rstrip_fixed (s : string) :
  (∀ c, last_char s = Some c → isspace c = false) → rstrip s = s.
Proof.
  induction s as [|c rest IH]; simpl; [done|].
  intros Hlast. destruct rest as [|c' rest'].
  - simpl. by rewrite (Hlast c eq_refl).
  - rewrite IH by done. reflexivity.
Qed.

Lemma strip_fixed (s : string) : strip (strip s) = strip s.
Proof.
  unfold strip.
  rewrite (lstrip_fixed (rstrip (lstrip s))).
  - apply rstrip_fixed, rstrip_last.
  - intros c Hc. apply rstrip_first in Hc. by eapply lstrip_first.
Qed.

Lemma occurrences_lstrip (c : ascii) (s : string) :
  occurrences c s = 0%nat → occurrences c (lstrip s) = 0%nat.
Proof.
  induction s as [|c' rest IH]; simpl; [done|].
  destruct (isspace c'); [|done]. intros Hz. apply IH. lia.
Qed.

Lemma occurrences_rstrip (c : ascii) (s : string) :
  occurrences c s = 0%nat → occurrences c (rstrip s) = 0%nat.
Proof.
  induction s as [|c' rest IH]; simpl; [done|].
  intros Hz. assert (occurrences c rest = 0%nat) as Hrest by lia.
  specialize (IH Hrest).
  destruct (rstrip rest) as [|c'' kept]; [destruct (isspace c')|]; simpl in *; lia.
Qed.

Lemma occurrences_strip (c : ascii) (s : string) :
  occurrences c s = 0%nat → occurrences c (strip s) = 0%nat.
Proof. intros Hz. by apply occurrences_rstrip, occurrences_lstrip. Qed.

Lemma strip_trimmed (l : list string) :
  Forall (λ o, strip o = o) l → strip <$> l = l.
Proof. induction 1 as [|o l Ho Hl IH]; [done|]. by rewrite fmap_cons, Ho, IH. Qed.

(** The list of allowed origins is never empty: it has one entry more
    than the configured text has commas. *)
Theorem ALLOWED_has_an_entry_per_piece (ALLOWED_ORIGINS : option string) :
  ALLOWED ALLOWED_ORIGINS ≠ [] ∧
  length (ALLOWED ALLOWED_ORIGINS) = S (occurrences "," (getenv ALLOWED_ORIGINS "*")).
Proof.
  assert (length (ALLOWED ALLOWED_ORIGINS)
          = S (occurrences "," (getenv ALLOWED_ORIGINS "*"))) as Hlen.
  { unfold ALLOWED. by rewrite length_fmap, split_on_length. }
  split; [|done]. intros Hnil. by rewrite Hnil in Hlen.
Qed.

(** Every allowed origin is trimmed: it holds no comma, neither starts
    nor ends with a blank, and trimming it again changes nothing. *)
Theorem ALLOWED_entries_are_trimmed (ALLOWED_ORIGINS : option string) :
  Forall (λ o, occurrences "," o = 0%nat ∧
               (∀ c, first_char o = Some c → isspace c = false) ∧
               (∀ c, last_char o = Some c → isspace c = false) ∧
               strip o = o)
         (ALLOWED ALLOWED_ORIGINS).
Proof.
  unfold ALLOWED. apply Forall_fmap.
  eapply Forall_impl; [apply split_on_pieces|].
  intros piece Hpiece. simpl.
  split; [by apply occurrences_strip|].
  split; [|split].
  - intros c Hc. unfold strip in Hc. apply rstrip_first in Hc. by eapply lstrip_first.
  - intros c Hc. by eapply rstrip_last.
  - apply strip_fixed.
Qed.

(** Origins that hold no comma, joined by commas, are read back one by
    one, each trimmed. *)
Theorem ALLOWED_of_joined_origins (origins : list string) :
  origins ≠ [] →
  Forall (λ o, occurrences "," o = 0%nat) origins →
  ALLOWED (Some (join "," origins)) = strip <$> origins.
Proof.
  intros Hne Hall. unfold ALLOWED. simpl. by rewrite split_on_join.
Qed.

(** Reading the allowed origins is stable: configured with its own
    result, joined by commas, it gives that result again. *)
Theorem ALLOWED_is_stable (ALLOWED_ORIGINS : option string) :
  ALLOWED (Some (join "," (ALLOWED ALLOWED_ORIGINS))) = ALLOWED ALLOWED_ORIGINS.
Proof.
  pose proof (ALLOWED_entries_are_trimmed ALLOWED_ORIGINS) as Htrim.
  assert (ALLOWED ALLOWED_ORIGINS ≠ []) as Hne.
  { unfold ALLOWED. intros Hnil. apply fmap_nil_inv in Hnil.
    by apply split_on_nonempty in Hnil. }
  unfold ALLOWED at 1. simpl. rewrite split_on_join; [|done|].
  - apply strip_trimmed. eapply Forall_impl; [exact Htrim|]. by intros o (_ & _ & _ & Ho).
  - eapply Forall_impl; [exact Htrim|]. by intros o (Ho & _).
Qed.

(** The origins handed to the CORS middleware are the allowed origins as
    read: the special case for the wildcard changes nothing. *)
Theorem allow_origins_is_ALLOWED (allowed : list string) :
  allow_origins allowed = allowed.
Proof. unfold allow_origins. by case_bool_decide. Qed.

(** The wildcard alone is allowed by default, and otherwise exactly when
    the configured text holds no comma and is a star once trimmed. *)
Theorem ALLOWED_is_the_wildcard_iff (ALLOWED_ORIGINS : option string) :
  ALLOWED None = ["*"] ∧
  (ALLOWED ALLOWED_ORIGINS = ["*"] ↔
   occurrences "," (getenv ALLOWED_ORIGINS "*") = 0%nat ∧
   strip (getenv ALLOWED_ORIGINS "*") = "*").
Proof.
  split; [reflexivity|]. split.
  - intros Hw.
    assert (occurrences "," (getenv ALLOWED_ORIGINS "*") = 0%nat) as Hz.
    { pose proof (split_on_length "," (getenv ALLOWED_ORIGINS "*")) as Hlen.
      unfold ALLOWED in Hw. apply (f_equal length) in Hw.
      rewrite length_fmap in Hw. simpl in Hw. lia. }
    split; [done|]. unfold ALLOWED in Hw. rewrite split_on_piece in Hw by done.
    by injection Hw.
  - intros [Hz Hs]. unfold ALLOWED. rewrite split_on_piece by done.
    simpl. by rewrite Hs.
Qed.

(** ** The further properties on sample data *)

Lemma ALLOWED_of_joined_origins_witness :
  let origins := [" https://a.example"; "https://b.example "] in
  origins ≠ [] ∧
  Forall (λ o, occurrences "," o = 0%nat) origins ∧
  ALLOWED (Some " https://a.example,https://b.example ") =
    ["https://a.example"; "https://b.example"].
Proof.
  intros origins.
  assert (origins ≠ []) as Hne by discriminate.
  assert (Forall (λ o, occurrences "," o = 0%nat) origins) as Hall
    by (repeat constructor).
  split; [exact Hne|]. split; [exact Hall|].
  exact (ALLOWED_of_joined_origins origins Hne Hall).
Defined.

Lemma create_adds_one_row_witness :
  let eve := UserOut.Build 3 "Eve" "eve@example.com" in
  let db' := {| rows := <[3 := ("Eve", "eve@example.com")]> (rows two_users);
                next_id := 4 |} in
  create_user no_constraint (UserIn.Build "Eve" "eve@example.com") two_users =
    (Return eve, db') ∧
  rows two_users !! 3 = None ∧
  size (rows db') = S (size (rows two_users)).
Proof.
  intros eve db'.
  assert (create_user no_constraint (UserIn.Build "Eve" "eve@example.com") two_users =
            (Return eve, db')) as Hcreate by (vm_compute; reflexivity).
  split; [exact Hcreate|].
  destruct (create_adds_one_row no_constraint two_users db'
              (UserIn.Build "Eve" "eve@example.com") eve Hcreate)
    as (Hfresh & _ & _ & Hsize & _).
  split; [exact Hfresh | exact Hsize].
Defined.

Lemma create_then_delete_witness :
  let eve := UserOut.Build 3 "Eve" "eve@example.com" in
  let db' := {| rows := <[3 := ("Eve", "eve@example.com")]> (rows two_users);
                next_id := 4 |} in
  create_user no_constraint (UserIn.Build "Eve" "eve@example.com") two_users =
    (Return eve, db') ∧
  ∃ db'', delete_user no_constraint 3 db' = (Return tt, db'') ∧
          rows db'' = rows two_users.
Proof.
  intros eve db'.
  assert (create_user no_constraint (UserIn.Build "Eve" "eve@example.com") two_users =
            (Return eve, db')) as Hcreate by (vm_compute; reflexivity).
  split; [exact Hcreate|].
  exact (create_then_delete no_constraint two_users db'
           (UserIn.Build "Eve" "eve@example.com") eve Hcreate).
Defined.

Lemma errors_write_nothing_witness :
  (∀ raw e, at_EmailStr raw = Some e → valid_email at_EmailStr e) ∧
  400 <= status_code (route at_EmailStr no_constraint (GetUser 7) two_users).1 ∧
  (route at_EmailStr no_constraint (GetUser 7) two_users).2 = two_users.
Proof.
  assert (400 <= status_code (route at_EmailStr no_constraint (GetUser 7) two_users).1)
    as Hstatus by (vm_compute; discriminate).
  split; [exact at_EmailStr_closed|]. split; [exact Hstatus|].
  exact (errors_write_nothing at_EmailStr no_constraint (GetUser 7) two_users
           at_EmailStr_closed Hstatus).
Defined.

Lemma app_is_the_route_behind_the_guard_witness :
  let request := {| headers := [("x-api-key", "secret")]; target := GetUser 1 |} in
  (truthy (Some "secret") = false ∨
   headers_get "x-api-key" (headers request) = Some "secret") ∧
  app (Some "secret") at_EmailStr no_constraint request two_users =
    route at_EmailStr no_constraint (GetUser 1) two_users.
Proof.
  intros request.
  assert (truthy (Some "secret") = false ∨
          headers_get "x-api-key" (headers request) = Some "secret") as Hpass
    by (right; reflexivity).
  split; [exact Hpass|].
  exact (app_is_the_route_behind_the_guard (Some "secret") at_EmailStr no_constraint
           request two_users Hpass).
Defined.
